(** * RobustPGO geometry utilities: PoseWithCovariance and PoseWithDistance

    Shallow embedding of [src/RobustPGO/utils/geometry_utils.h].

    The C++ code is a template over a gtsam pose type [T] (gtsam::Pose2 or
    gtsam::Pose3).  The operations of [T] that the header calls
    ([compose], [inverse], [between] with their Jacobians, [Logmap],
    [translation().norm()], the dimensions) belong to gtsam and are
    collected here in type classes; the structures of the header are then
    defined generically over any such [T].  Covariance matrices
    ([gtsam::Matrix]) are MathComp square matrices of size [getDim<T>()]
    over a scalar type [R]. *)

From Stdlib Require Import PrimFloat.
From Stdlib Require SpecFloat FloatAxioms BinInt BinPos.
From Stdlib Require List.
From HB Require Import structures.
From mathcomp Require Import boot order algebra.

Set Implicit Arguments.
Unset Strict Implicit.
Unset Printing Implicit Defensive.

Import GRing.Theory Num.Theory.
Local Open Scope ring_scope.

(* ------------------------------------------------------------------ *)
(** ** The pose type [T] *)

(** [getRotationDim<T>()] and [getTranslationDim<T>()]; [getDim<T>()] is
    their sum.  The header takes the rotation block of a covariance at its
    top left; where gtsam actually puts it is [TangentLayout] below. *)
Class PoseDims (T : Type) := {
  rot_dim : nat;
  trans_dim : nat
}.

Definition getDim (T : Type) `{PoseDims T} : nat := (rot_dim + trans_dim)%N.
Arguments getDim T {_}.

(** Where gtsam places the rotation and the translation coordinates of [T]
    in its tangent space, and so in a covariance matrix: [gtsam::Pose3]
    lists its three rotation coordinates first, [gtsam::Pose2] lists
    [(x, y, theta)], its rotation coordinate last. *)
Class TangentLayout (T : Type) `{PoseDims T} := {
  rot_index : 'I_(@rot_dim T _) -> 'I_(getDim T);
  trans_index : 'I_(@trans_dim T _) -> 'I_(getDim T)
}.
Arguments TangentLayout T {_}.

Section Layout.
Variables (F : Type) (T : Type).
Context `{TangentLayout T}.

(** The rotation and the translation blocks of a covariance, as gtsam lays
    it out. *)
Definition rot_block (C : 'M[F]_(getDim T)) : 'M[F]_(@rot_dim T _) :=
  \matrix_(i, j) C (rot_index i) (rot_index j).

Definition trans_block (C : 'M[F]_(getDim T)) : 'M[F]_(@trans_dim T _) :=
  \matrix_(i, j) C (trans_index i) (trans_index j).
End Layout.

(** [T] lists its rotation coordinates first, as the header assumes when
    it takes the top-left [r_dim x r_dim] block for the rotation. *)
Definition rotation_first (T : Type) `{TangentLayout T} : Prop :=
  (forall i, rot_index i = lshift trans_dim i) /\
  (forall j, trans_index j = rshift rot_dim j).
Arguments rotation_first T {_ _}.

(** The gtsam group operations the header calls, with the Jacobians that
    the overloads taking [OptionalJacobian] arguments write back:
    - [a.compose(b, Ha, Hb)]: [T_compose a b], [Ha = T_compose_H1 a b],
      [Hb = T_compose_H2 a b];
    - [a.inverse(H)]: [T_inverse a], [H = T_inverse_H a];
    - [a.between(b, Ha, Hb)]: [T_between a b], [Ha = T_between_H1 a b],
      [Hb = T_between_H2 a b]. *)
Class LieGroup (R : Type) (T : Type) `{PoseDims T} := {
  T_identity : T;
  T_compose : T -> T -> T;
  T_compose_H1 : T -> T -> 'M[R]_(getDim T);
  T_compose_H2 : T -> T -> 'M[R]_(getDim T);
  T_inverse : T -> T;
  T_inverse_H : T -> 'M[R]_(getDim T);
  T_between : T -> T -> T;
  T_between_H1 : T -> T -> 'M[R]_(getDim T);
  T_between_H2 : T -> T -> 'M[R]_(getDim T)
}.
Arguments LieGroup R T {_}.

(** The group laws gtsam's pose types satisfy (in exact arithmetic). *)
Class LieGroupLaws (R : Type) (T : Type) `{LG : LieGroup R T} : Prop := {
  compose_assoc : forall a b c,
    T_compose a (T_compose b c) = T_compose (T_compose a b) c;
  compose_id_l : forall a, T_compose T_identity a = a;
  compose_inv_l : forall a, T_compose (T_inverse a) a = T_identity;
  compose_inv_r : forall a, T_compose a (T_inverse a) = T_identity;
  between_def : forall a b, T_between a b = T_compose (T_inverse a) b
}.
Arguments LieGroupLaws R T {_ _}.

(** [T::Logmap(pose)] and [pose.translation().norm()]. *)
Class PoseMetric (R : Type) (T : Type) `{PoseDims T} := {
  T_Logmap : T -> 'cV[R]_(getDim T);
  T_translation_norm : T -> R
}.
Arguments PoseMetric R T {_}.

(** The factors the structures are built from.  [noise_covariance] is
    [boost::dynamic_pointer_cast<noiseModel::Gaussian>(noiseModel)->covariance()]. *)
Section Factors.
Variables (R : Type) (T : Type).
Context `{PoseDims T}.

Record PriorFactor := { prior : T }.

Record BetweenFactor := {
  measured : T;
  noise_covariance : 'M[R]_(getDim T)
}.
End Factors.

Arguments BetweenFactor R T {_}.

(* ------------------------------------------------------------------ *)
(** ** [struct PoseWithCovariance] *)

Section PoseWithCovarianceDef.
Variables (R : Type) (T : Type).
Context `{PoseDims T}.

Record PoseWithCovariance := {
  pose : T;
  covariance_matrix : 'M[R]_(getDim T)
}.
End PoseWithCovarianceDef.

Arguments PoseWithCovariance R T {_}.

(** Construction from a between factor.  Generic over the scalar type:
    [zero] is [0.0], [add] is the addition Eigen's [trace()] folds with
    and [isnan] is [std::isnan]. *)
Section FromBetween.
Variables (R : Type) (zero : R) (add : R -> R -> R) (isnan : R -> bool).
Variable T : Type.
Context `{PoseDims T}.

(** Eigen's [trace()]: the diagonal summed from the first coefficient on,
    [((d0 + d1) + d2) + ...], and [0] for an empty matrix. *)
Definition trace_eigen n (M : 'M[R]_n) : R :=
  match [seq M i i | i <- enum 'I_n] with
  | [::] => zero
  | d :: ds => foldl add d ds
  end.

(** [PoseWithCovariance(const gtsam::BetweenFactor<T>&)] (lines 89-108). *)
Definition pwc_of_between (bf : BetweenFactor R T) : PoseWithCovariance R T :=
  let covar := noise_covariance bf in
  let covar :=
    if isnan (trace_eigen (ulsubmx covar)) then
      (* only keep translation part *)
      block_mx (const_mx zero) (const_mx zero) (const_mx zero) (drsubmx covar)
    else covar in
  {| pose := measured bf; covariance_matrix := covar |}.
End FromBetween.

Section PoseWithCovarianceOps.
Variables (R : ringType) (T : Type).
Context `{LG : LieGroup R T}.

Local Notation PWC := (PoseWithCovariance R T).

(** Eigen's [LLT<MatrixXd>(M).info() == Success]: whether the Cholesky
    factorization succeeds.  Eigen is outside the repository; the
    development is generic in this test. *)
Variable llt_ok : 'M[R]_(getDim T) -> bool.

(** Default constructor: identity pose, zero covariance. *)
Definition pwc_default : PWC :=
  {| pose := T_identity; covariance_matrix := 0 |}.

(** [PoseWithCovariance(const gtsam::PriorFactor<T>&)]: zero covariance. *)
Definition pwc_of_prior (pf : PriorFactor T) : PWC :=
  {| pose := prior pf; covariance_matrix := 0 |}.

(** [compose] (lines 112-121). *)
Definition compose (A other : PWC) : PWC :=
  let Ha := T_compose_H1 (pose A) (pose other) in
  let Hb := T_compose_H2 (pose A) (pose other) in
  {| pose := T_compose (pose A) (pose other);
     covariance_matrix :=
       Ha *m covariance_matrix A *m Ha^T + Hb *m covariance_matrix other *m Hb^T |}.

(** [inverse] (lines 125-132). *)
Definition inverse (A : PWC) : PWC :=
  let Ha := T_inverse_H (pose A) in
  {| pose := T_inverse (pose A);
     covariance_matrix := Ha *m covariance_matrix A *m Ha^T |}.

(** [between] (lines 136-163).  The pose is [pose.between(other.pose)]; the
    covariance is [other.cov - Ha * cov * Ha^T] when its Cholesky
    factorization succeeds.  Otherwise [other.pose.between(pose, Ha, Hb)]
    is called for its Jacobian only (its value is discarded), the
    covariance becomes [cov - Ha * other.cov * Ha^T], and the second
    Cholesky factorization [lltCovar2] is computed but never inspected
    (the warning is commented out). *)
Definition between (A other : PWC) : PWC :=
  let out_pose := T_between (pose A) (pose other) in
  let Ha := T_between_H1 (pose A) (pose other) in
  let covar1 := covariance_matrix other - Ha *m covariance_matrix A *m Ha^T in
  let pos_semi_def := llt_ok covar1 in
  if pos_semi_def then
    {| pose := out_pose; covariance_matrix := covar1 |}
  else
    let Ha' := T_between_H1 (pose other) (pose A) in
    let covar2 := covariance_matrix A - Ha' *m covariance_matrix other *m Ha'^T in
    let _lltCovar2 := llt_ok covar2 in
    {| pose := out_pose; covariance_matrix := covar2 |}.
End PoseWithCovarianceOps.

(** [between] as the spec describes its fallback: when the first
    covariance fails the Cholesky test, the relative transform is
    recomputed in the opposite direction, [between(B, A)], and inverted
    with [inverse] (which also propagates the covariance).  Used only to
    compare with [between]. *)
Section BetweenAsSpecified.
Variables (R : ringType) (T : Type).
Context `{LG : LieGroup R T}.
Variable llt_ok : 'M[R]_(getDim T) -> bool.

Definition between_unchecked (A other : PoseWithCovariance R T) : PoseWithCovariance R T :=
  let Ha := T_between_H1 (pose A) (pose other) in
  {| pose := T_between (pose A) (pose other);
     covariance_matrix := covariance_matrix other - Ha *m covariance_matrix A *m Ha^T |}.

Definition between_as_specified (A other : PoseWithCovariance R T) : PoseWithCovariance R T :=
  let out := between_unchecked A other in
  if llt_ok (covariance_matrix out) then out
  else inverse (between_unchecked other A).
End BetweenAsSpecified.

(* ------------------------------------------------------------------ *)
(** ** [struct PoseWithDistance] *)

Section PoseWithDistanceDef.
Variables (R : Type) (T : Type).

(** The C++ field [pose] is [dpose] here (Rocq projections are global). *)
Record PoseWithDistance := {
  dpose : T;
  distance : R
}.
End PoseWithDistanceDef.

Section PoseWithDistanceOps.
Variables (R : numDomainType) (T : Type).
Context `{PD : PoseDims T} `{LG : !LieGroup R T} `{PM : !PoseMetric R T}.

Local Notation PWD := (PoseWithDistance R T).

Definition pwd_default : PWD := {| dpose := T_identity; distance := 0 |}.

(** [PoseWithDistance(const gtsam::PriorFactor<T>&)]: distance [0.0]. *)
Definition pwd_of_prior (pf : PriorFactor T) : PWD :=
  {| dpose := prior pf; distance := 0 |}.

(* [PoseWithDistance(const gtsam::BetweenFactor<T>&)] (lines 203-206) is
   not modelled: its body names the member function [measured] without
   calling it ([between_factor.measured.translation()]), so the
   constructor is ill-formed once the template is instantiated. *)

(** [compose] (lines 210-216). *)
Definition compose_d (A other : PWD) : PWD :=
  {| dpose := T_compose (dpose A) (dpose other);
     distance := distance A + T_translation_norm (dpose other) |}.

(** [inverse] (lines 220-226). *)
Definition inverse_d (A : PWD) : PWD :=
  {| dpose := T_inverse (dpose A); distance := distance A |}.

(** [between] (lines 230-236); [abs] of a double is its absolute value. *)
Definition between_d (A other : PWD) : PWD :=
  {| dpose := T_between (dpose A) (dpose other);
     distance := `|distance other - distance A| |}.
End PoseWithDistanceOps.

(* ------------------------------------------------------------------ *)
(** ** The norms *)

Section Norms.
Variables (R : numFieldType) (T : Type).
Context `{PD : PoseDims T} `{PM : !PoseMetric R T}.

(** [std::sqrt]. *)
Variable sqrt : R -> R.

(** [PoseWithCovariance::norm] (lines 165-169); [gtsam::inverse] of the
    covariance is the matrix inverse [invmx]. *)
Definition norm (A : PoseWithCovariance R T) : R :=
  let log := T_Logmap (pose A) in
  sqrt ((log^T *m invmx (covariance_matrix A) *m log) 0 0).

(** [PoseWithDistance::norm] (lines 238-242). *)
Definition norm_d (A : PoseWithDistance R T) : R :=
  let log := T_Logmap (dpose A) in
  sqrt ((log^T *m log) 0 0) / distance A.

(** The same computations where a division by zero and the inversion of a
    singular matrix are errors ([None]) instead of producing a value:
    [norm] and [norm_d] are well defined exactly where these succeed. *)
Definition div_checked (x y : R) : option R :=
  if y == 0 then None else Some (x / y).

Definition inverse_checked n (M : 'M[R]_n) : option 'M[R]_n :=
  if M \in unitmx then Some (invmx M) else None.

Definition norm_checked (A : PoseWithCovariance R T) : option R :=
  let log := T_Logmap (pose A) in
  match inverse_checked (covariance_matrix A) with
  | Some Minv => Some (sqrt ((log^T *m Minv *m log) 0 0))
  | None => None
  end.

Definition norm_d_checked (A : PoseWithDistance R T) : option R :=
  let log := T_Logmap (dpose A) in
  div_checked (sqrt ((log^T *m log) 0 0)) (distance A).
End Norms.

(* ------------------------------------------------------------------ *)
(** ** Objects in memory

    The methods are [const] member functions taking their argument by
    [const&]: they read [*this] and [other] and build [out] in fresh
    storage.  Objects live in a store indexed by address; allocation
    appends.  Aliasing is allowed ([self] may equal [other]). *)
Section Store.
Variable V : Type.

Definition store := seq V.

Definition load (h : store) (l : nat) : option V := List.nth_error h l.

(** [h.alloc(v)]: the new object lives at the first free address. *)
Definition alloc (h : store) (v : V) : store * nat := (rcons h v, size h).

(** The frame of a call that returned [(h', l)]: every object that existed
    before is unchanged, and [l] is a fresh address holding [v]. *)
Definition fresh_result (h h' : store) (l : nat) (v : V) : Prop :=
  load h l = None /\ load h' l = Some v /\
  forall l', (l' < size h)%N -> load h' l' = load h l'.

(** The objects a method body names: [*this], the argument [other] and the
    local [out]. *)
Inductive objref := This | Other | Out.

(** The other locals of a method ([Ha], [Hb], [pos_semi_def], [log]). *)
Variable L : Type.

(** A running method: the store, the addresses of its three objects and
    its other locals. *)
Record activation := Activation {
  heap : store;
  this_addr : nat;
  other_addr : nat;
  out_addr : nat;
  locals : L
}.

Definition addr (a : activation) (o : objref) : nat :=
  match o with This => this_addr a | Other => other_addr a | Out => out_addr a end.

(** Reading an object ([dflt] stands for a dangling address). *)
Variable dflt : V.

Definition read (a : activation) (o : objref) : V := nth dflt (heap a) (addr a o).

(** The statements of the method bodies: an assignment to a field of an
    object ([SSet o f], where [f a] is the object [o] with that field
    replaced), an assignment to the other locals (which includes the
    Jacobians a gtsam call writes through its [OptionalJacobian]
    arguments), sequencing and [if]. *)
Inductive stmt :=
| SSkip
| SSeq (s1 s2 : stmt)
| SIf (c : activation -> bool) (s1 s2 : stmt)
| SSet (o : objref) (f : activation -> V)
| SLocal (f : activation -> L).

(** Execution; writing through a dangling address is an error. *)
Fixpoint exec (s : stmt) (a : activation) : option activation :=
  match s with
  | SSkip => Some a
  | SSeq s1 s2 =>
      match exec s1 a with
      | Some a' => exec s2 a'
      | None => None
      end
  | SIf c s1 s2 => if c a then exec s1 a else exec s2 a
  | SSet o f =>
      if (addr a o < size (heap a))%N then
        Some (Activation (set_nth dflt (heap a) (addr a o) (f a))
                (this_addr a) (other_addr a) (out_addr a) (locals a))
      else None
  | SLocal f =>
      Some (Activation (heap a) (this_addr a) (other_addr a) (out_addr a) (f a))
  end.

(** [self->m(other)] returning an object: the local [out] is
    default-constructed ([out0]) in fresh storage, the other locals start
    at [l0], the body runs and [out] is returned.  A method without an
    argument is called with [other = self]. *)
Definition call_method (body : stmt) (out0 : V) (l0 : L) (h : store) (self other : nat)
    : option (store * nat) :=
  match load h self, load h other with
  | Some _, Some _ =>
      let (h1, l) := alloc h out0 in
      match exec body (Activation h1 self other l l0) with
      | Some a => Some (heap a, l)
      | None => None
      end
  | _, _ => None
  end.

(** [self->m()] returning a scalar computed from the final locals; no
    [out] object exists (its address is past the end of the store). *)
Definition call_query (S : Type) (body : stmt) (result : activation -> S) (l0 : L)
    (h : store) (self : nat) : option (store * S) :=
  match load h self with
  | Some _ =>
      match exec body (Activation h self self (size h) l0) with
      | Some a => Some (heap a, result a)
      | None => None
      end
  | None => None
  end.

(** What a method call leaves behind: when its operands exist, every
    existing object is unchanged and the result is a fresh object holding
    [op] of the operands; otherwise nothing is called. *)
Definition method_spec (body : stmt) (out0 : V) (l0 : L) (op : V -> V -> V)
    (h : store) (self other : nat) : Prop :=
  match call_method body out0 l0 h self other with
  | Some (h', l) =>
      exists a b, load h self = Some a /\ load h other = Some b /\
                  fresh_result h h' l (op a b)
  | None => load h self = None \/ load h other = None
  end.

(** The same for a method returning a scalar: the store is unchanged. *)
Definition query_spec (S : Type) (body : stmt) (result : activation -> S) (l0 : L)
    (op : V -> S) (h : store) (self : nat) : Prop :=
  match call_query body result l0 h self with
  | Some (h', r) => h' = h /\ exists a, load h self = Some a /\ r = op a
  | None => load h self = None
  end.
End Store.

Arguments SSkip {V L}.

(** The method bodies, statement by statement. *)
Section MethodBodies.
Variables (R : numFieldType) (T : Type).
Context `{PD : PoseDims T} `{LG : !LieGroup R T} `{PM : !PoseMetric R T}.
Variable llt_ok : 'M[R]_(getDim T) -> bool.
Variable sqrt : R -> R.

Local Notation PWC := (PoseWithCovariance R T).
Local Notation PWD := (PoseWithDistance R T).

(** The locals of [PoseWithCovariance]'s methods besides [out]. *)
Record pwc_locals := PwcLocals {
  Ha : 'M[R]_(getDim T);
  Hb : 'M[R]_(getDim T);
  pos_semi_def : bool;
  log : 'cV[R]_(getDim T)
}.

(** Their values before the first assignment (never read). *)
Definition pwc_locals0 : pwc_locals := PwcLocals 0 0 true 0.

Definition set_jacobians (l : pwc_locals) (A B : 'M[R]_(getDim T)) : pwc_locals :=
  PwcLocals A B (pos_semi_def l) (log l).

Definition set_pos_semi_def (l : pwc_locals) (b : bool) : pwc_locals :=
  PwcLocals (Ha l) (Hb l) b (log l).

Definition set_log (l : pwc_locals) (v : 'cV[R]_(getDim T)) : pwc_locals :=
  PwcLocals (Ha l) (Hb l) (pos_semi_def l) v.

Definition set_pose (o : PWC) (p : T) : PWC :=
  {| pose := p; covariance_matrix := covariance_matrix o |}.

Definition set_covariance (o : PWC) (C : 'M[R]_(getDim T)) : PWC :=
  {| pose := pose o; covariance_matrix := C |}.

Local Notation pwc_stmt := (stmt PWC pwc_locals).
Local Notation rd := (read (pwc_default (R := R) (T := T))).

(** [compose] (lines 112-121).  Line 116 calls
    [pose.compose(other.pose, Ha, Hb)], which writes [Ha] and [Hb], and
    assigns its value to [out.pose]. *)
Definition compose_body : pwc_stmt :=
  SSeq (SLocal (fun a => set_jacobians (locals a)
                   (T_compose_H1 (pose (rd a This)) (pose (rd a Other)))
                   (T_compose_H2 (pose (rd a This)) (pose (rd a Other)))))
  (SSeq (SSet Out (fun a => set_pose (rd a Out)
                     (T_compose (pose (rd a This)) (pose (rd a Other)))))
        (SSet Out (fun a => set_covariance (rd a Out)
                     (Ha (locals a) *m covariance_matrix (rd a This) *m (Ha (locals a))^T +
                      Hb (locals a) *m covariance_matrix (rd a Other) *m (Hb (locals a))^T)))).

(** [inverse] (lines 125-132): [out.pose = pose.inverse(Ha)] writes [Ha]. *)
Definition inverse_body : pwc_stmt :=
  SSeq (SLocal (fun a => set_jacobians (locals a) (T_inverse_H (pose (rd a This))) (Hb (locals a))))
  (SSeq (SSet Out (fun a => set_pose (rd a Out) (T_inverse (pose (rd a This)))))
        (SSet Out (fun a => set_covariance (rd a Out)
                     (Ha (locals a) *m covariance_matrix (rd a This) *m (Ha (locals a))^T)))).

(** [between] (lines 136-163).  [lltCovar1.info() == NumericalIssue] is
    [~~ llt_ok]; the fallback's call [other.pose.between(pose, Ha, Hb)]
    only writes [Ha] and [Hb]; [lltCovar2] is never inspected. *)
Definition between_body : pwc_stmt :=
  SSeq (SLocal (fun a => set_jacobians (locals a)
                   (T_between_H1 (pose (rd a This)) (pose (rd a Other)))
                   (T_between_H2 (pose (rd a This)) (pose (rd a Other)))))
  (SSeq (SSet Out (fun a => set_pose (rd a Out)
                     (T_between (pose (rd a This)) (pose (rd a Other)))))
  (SSeq (SSet Out (fun a => set_covariance (rd a Out)
                     (covariance_matrix (rd a Other) -
                      Ha (locals a) *m covariance_matrix (rd a This) *m (Ha (locals a))^T)))
  (SSeq (SLocal (fun a => set_pos_semi_def (locals a) true))
  (SSeq (SIf (fun a => ~~ llt_ok (covariance_matrix (rd a Out)))
             (SLocal (fun a => set_pos_semi_def (locals a) false))
             SSkip)
        (SIf (fun a => ~~ pos_semi_def (locals a))
             (SSeq (SLocal (fun a => set_jacobians (locals a)
                              (T_between_H1 (pose (rd a Other)) (pose (rd a This)))
                              (T_between_H2 (pose (rd a Other)) (pose (rd a This)))))
                   (SSet Out (fun a => set_covariance (rd a Out)
                                (covariance_matrix (rd a This) -
                                 Ha (locals a) *m covariance_matrix (rd a Other) *m (Ha (locals a))^T))))
             SSkip))))).

(** [norm] (lines 165-169): the local [log], then the returned value. *)
Definition norm_body : pwc_stmt :=
  SLocal (fun a => set_log (locals a) (T_Logmap (pose (rd a This)))).

Definition norm_result (a : activation PWC pwc_locals) : R :=
  let lg := log (locals a) in
  sqrt ((lg^T *m invmx (covariance_matrix (rd a This)) *m lg) 0 0).

Definition set_dpose (o : PWD) (p : T) : PWD :=
  {| dpose := p; distance := distance o |}.

Definition set_distance (o : PWD) (d : R) : PWD :=
  {| dpose := dpose o; distance := d |}.

(** [PoseWithDistance]'s methods have one other local, [log] in [norm]. *)
Local Notation pwd_stmt := (stmt PWD 'cV[R]_(getDim T)).
Local Notation rdd := (read (pwd_default (R := R) (T := T))).

(** [compose] (lines 210-216). *)
Definition compose_d_body : pwd_stmt :=
  SSeq (SSet Out (fun a => set_dpose (rdd a Out) (T_compose (dpose (rdd a This)) (dpose (rdd a Other)))))
       (SSet Out (fun a => set_distance (rdd a Out)
                    (distance (rdd a This) + T_translation_norm (dpose (rdd a Other))))).

(** [inverse] (lines 220-226). *)
Definition inverse_d_body : pwd_stmt :=
  SSeq (SSet Out (fun a => set_dpose (rdd a Out) (T_inverse (dpose (rdd a This)))))
       (SSet Out (fun a => set_distance (rdd a Out) (distance (rdd a This)))).

(** [between] (lines 230-236). *)
Definition between_d_body : pwd_stmt :=
  SSeq (SSet Out (fun a => set_dpose (rdd a Out) (T_between (dpose (rdd a This)) (dpose (rdd a Other)))))
       (SSet Out (fun a => set_distance (rdd a Out) `|distance (rdd a Other) - distance (rdd a This)|)).

(** [norm] (lines 238-242). *)
Definition norm_d_body : pwd_stmt :=
  SLocal (fun a => T_Logmap (dpose (rdd a This))).

Definition norm_d_result (a : activation PWD 'cV[R]_(getDim T)) : R :=
  sqrt (((locals a)^T *m locals a) 0 0) / distance (rdd a This).
End MethodBodies.

(* ------------------------------------------------------------------ *)
(** ** A concrete pose type: planar poses with quarter-turn rotations

    A model of [gtsam::Pose2] (rotation stored as [c = cos], [s = sin],
    translation [(x, y)]) restricted to the rotations by multiples of 90
    degrees, so that all of its arithmetic is exact over [int].  Jacobians
    are gtsam's: [AdjointMap() = [c -s y; s c -x; 0 0 1]],
    [compose]: [H1 = other.inverse().AdjointMap()], [H2 = I];
    [inverse]: [H = -AdjointMap()];
    [between]: [H1 = -(between result).inverse().AdjointMap()], [H2 = I]. *)
Module Pose2Q.

Inductive quarter := Q0 | Q90 | Q180 | Q270.

Definition qnum (q : quarter) : nat :=
  match q with Q0 => 0 | Q90 => 1 | Q180 => 2 | Q270 => 3 end.

Definition qofnat (n : nat) : quarter :=
  match (n %% 4)%N with 0 => Q0 | 1 => Q90 | 2 => Q180 | _ => Q270 end.

Definition qadd (a b : quarter) : quarter := qofnat (qnum a + qnum b).
Definition qneg (a : quarter) : quarter := qofnat (4 - qnum a).

Definition qc (q : quarter) : int :=
  match q with Q0 => 1 | Q90 => 0 | Q180 => -1 | Q270 => 0 end.
Definition qs (q : quarter) : int :=
  match q with Q0 => 0 | Q90 => 1 | Q180 => 0 | Q270 => -1 end.

Definition vec := (int * int)%type.
Definition vadd (u v : vec) : vec := (u.1 + v.1, u.2 + v.2).
Definition vneg (u : vec) : vec := (- u.1, - u.2).

(** [R * (x, y) = (c x - s y, s x + c y)], at the four quarter turns. *)
Definition qrot (q : quarter) (u : vec) : vec :=
  match q with
  | Q0 => (u.1, u.2)
  | Q90 => (- u.2, u.1)
  | Q180 => (- u.1, - u.2)
  | Q270 => (u.2, - u.1)
  end.

Record pose2 := Pose2 { p2_t : vec; p2_r : quarter }.

Definition identity2 : pose2 := Pose2 (0, 0) Q0.

Definition compose2 (a b : pose2) : pose2 :=
  Pose2 (vadd (p2_t a) (qrot (p2_r a) (p2_t b))) (qadd (p2_r a) (p2_r b)).

Definition inverse2 (a : pose2) : pose2 :=
  Pose2 (qrot (qneg (p2_r a)) (vneg (p2_t a))) (qneg (p2_r a)).

(** [Pose2::between]: rotation [R1' R2], translation [R1' (t2 - t1)]. *)
Definition between2 (a b : pose2) : pose2 :=
  Pose2 (qrot (qneg (p2_r a)) (vadd (p2_t b) (vneg (p2_t a))))
        (qadd (qneg (p2_r a)) (p2_r b)).

Definition mx3 (rows : seq (seq int)) : 'M[int]_3 :=
  \matrix_(i < 3, j < 3) nth 0 (nth [::] rows i) j.

Definition AdjointMap (a : pose2) : 'M[int]_3 :=
  let c := qc (p2_r a) in let s := qs (p2_r a) in
  let x := (p2_t a).1 in let y := (p2_t a).2 in
  mx3 [:: [:: c; - s; y]; [:: s; c; - x]; [:: 0; 0; 1]].

#[global] Instance pose2_dims : PoseDims pose2 := {| rot_dim := 1; trans_dim := 2 |}.

#[global] Instance pose2_lie : LieGroup int pose2 := {|
  T_identity := identity2;
  T_compose := compose2;
  T_compose_H1 := fun a b => AdjointMap (inverse2 b);
  T_compose_H2 := fun _ _ => 1%:M;
  T_inverse := inverse2;
  T_inverse_H := fun a => - AdjointMap a;
  T_between := between2;
  T_between_H1 := fun a b => - AdjointMap (inverse2 (between2 a b));
  T_between_H2 := fun _ _ => 1%:M
|}.

(** gtsam's coordinates of [Pose2] are [(x, y, theta)]. *)
#[global] Instance pose2_layout : TangentLayout pose2 := {|
  rot_index := fun _ => @Ordinal 3 2 isT;
  trans_index := fun j => @widen_ord 2 3 isT j
|}.

End Pose2Q.

(* ------------------------------------------------------------------ *)
(** ** Positive semi-definiteness and Eigen's Cholesky test *)

Section Definiteness.
Variable R : numDomainType.

Definition psd n (M : 'M[R]_n) : Prop :=
  forall x : 'cV[R]_n, 0 <= (x^T *m M *m x) 0 0.

(** [Eigen::LLT] reads the lower triangle of its argument. *)
Definition lower_sym n (M : 'M[R]_n) : 'M[R]_n :=
  \matrix_(i, j) if (j <= i)%N then M i j else M j i.

Definition leading n (k : 'I_n) (M : 'M[R]_n) : 'M[R]_k.+1 :=
  \matrix_(i, j) M (widen_ord (ltn_ord k) i) (widen_ord (ltn_ord k) j).

(** In exact arithmetic the Cholesky factorization of the (lower-)symmetric
    matrix succeeds exactly when it is positive definite, that is when all
    its leading principal minors are positive (Sylvester's criterion):
    [LLT<MatrixXd>(M).info() == Success]. *)
Definition llt_succeeds n (M : 'M[R]_n) : bool :=
  [forall k : 'I_n, 0 < \det (leading k (lower_sym M))].
End Definiteness.

(* ------------------------------------------------------------------ *)
(** ** A [gtsam::Pose3]-shaped pose type over IEEE doubles

    Only its dimensions matter to the between-factor constructor: three
    rotation coordinates followed by three translation coordinates. *)
Module Pose3F.

Record pose3 := Pose3 { rot3 : 'M[float]_3; trans3 : 'cV[float]_3 }.

#[global] Instance pose3_dims : PoseDims pose3 := {| rot_dim := 3; trans_dim := 3 |}.

#[global] Instance pose3_layout : TangentLayout pose3 := {|
  rot_index := fun i => lshift 3 i;
  trans_index := fun j => rshift 3 j
|}.

Definition pose3_identity : pose3 :=
  Pose3 (\matrix_(i, j) if i == j then PrimFloat.one else PrimFloat.zero)
        (const_mx PrimFloat.zero).

(** The constructor at [double]: [0.0], IEEE addition and [std::isnan]. *)
Definition pwc_of_between_double (bf : BetweenFactor float pose3)
    : PoseWithCovariance float pose3 :=
  pwc_of_between PrimFloat.zero PrimFloat.add PrimFloat.is_nan bf.

Definition diag6 (d : seq float) : 'M[float]_6 :=
  \matrix_(i, j) if i == j then nth PrimFloat.zero d i else PrimFloat.zero.

(** A between factor whose first rotation variance is [+inf]. *)
Definition bf_inf_rotation : BetweenFactor float pose3 :=
  {| measured := pose3_identity;
     noise_covariance :=
       diag6 [:: PrimFloat.infinity; PrimFloat.one; PrimFloat.one;
                 PrimFloat.one; PrimFloat.one; PrimFloat.one] |}.

(** A between factor whose first rotation variance is [NaN]. *)
Definition bf_nan_rotation : BetweenFactor float pose3 :=
  {| measured := pose3_identity;
     noise_covariance :=
       diag6 [:: PrimFloat.nan; PrimFloat.one; PrimFloat.one;
                 PrimFloat.one; PrimFloat.one; PrimFloat.one] |}.

End Pose3F.

(** A [gtsam::Pose2] between factor at [double]. *)
Module Pose2F.
Import Pose2Q.

Definition diag3 (d : seq float) : 'M[float]_3 :=
  \matrix_(i, j) if i == j then nth PrimFloat.zero d i else PrimFloat.zero.

(** Its rotation variance (coordinate [theta], the last) is [NaN]. *)
Definition bf_nan_theta : BetweenFactor float pose2 :=
  {| measured := identity2;
     noise_covariance := diag3 [:: PrimFloat.one; PrimFloat.one; PrimFloat.nan] |}.

End Pose2F.

(** Concrete planar inputs. *)
Module Pose2QInputs.
Import Pose2Q.

Definition pwc2 := PoseWithCovariance int pose2.

(** [A]: identity pose, unit covariance; [B]: one unit along x, zero
    covariance. *)
Definition A_unit : pwc2 := {| pose := identity2; covariance_matrix := 1%:M |}.
Definition B_shift : pwc2 := {| pose := Pose2 (1, 0) Q0; covariance_matrix := 0 |}.

(** Identity pose with covariance [-I] (for instance an output of the
    [between] fallback, which is not checked). *)
Definition A_negcov : pwc2 := {| pose := identity2; covariance_matrix := - 1%:M |}.

(** A relative pose: a quarter turn and a shift. *)
Definition r_turn : pwc2 := {| pose := Pose2 (2, -1) Q90; covariance_matrix := 1%:M |}.

(** Indices of a 3x3 covariance. *)
Definition o0 : 'I_3 := @Ordinal 3 0 isT.
Definition o1 : 'I_3 := @Ordinal 3 1 isT.

End Pose2QInputs.

(** Symmetry of a covariance matrix ([M.transpose() == M]). *)
Definition symmetric (F : Type) n (M : 'M[F]_n) : Prop := M^T = M.

(* ------------------------------------------------------------------ *)
(** ** A pose type with an exact metric: translations of the line

    The translations [x |-> x + t] of the line, over [int]: no rotation
    coordinate and one translation coordinate.  Its adjoint map is [1], so
    gtsam's Jacobian formulas give [compose]: [H1 = H2 = 1]; [inverse]:
    [H = -1]; [between]: [H1 = -1], [H2 = 1].  Its [Logmap] is the
    translation and its translation norm the absolute value, both exact. *)
Module Line1.

Record line := Line { lx : int }.

#[global] Instance line_dims : PoseDims line := {| rot_dim := 0; trans_dim := 1 |}.

#[global] Instance line_lie : LieGroup int line := {|
  T_identity := Line 0;
  T_compose := fun a b => Line (lx a + lx b);
  T_compose_H1 := fun _ _ => 1%:M;
  T_compose_H2 := fun _ _ => 1%:M;
  T_inverse := fun a => Line (- lx a);
  T_inverse_H := fun _ => - 1%:M;
  T_between := fun a b => Line (lx b - lx a);
  T_between_H1 := fun _ _ => - 1%:M;
  T_between_H2 := fun _ _ => 1%:M
|}.

#[global] Instance line_metric : PoseMetric int line := {|
  T_Logmap := fun a => const_mx (lx a);
  T_translation_norm := fun a => `|lx a|
|}.

(** Start at [0] with distance [2]; a step of [-3] with distance [5]. *)
Definition d_start : PoseWithDistance int line := {| dpose := Line 0; distance := 2 |}.
Definition d_step : PoseWithDistance int line := {| dpose := Line (-3); distance := 5 |}.

End Line1.

(* ================================================================== *)
(** * Properties *)

(** ** The planar pose type satisfies the group laws *)
Module Pose2QLaws.
Import Pose2Q.

Lemma qrotD q u v : qrot q (vadd u v) = vadd (qrot q u) (qrot q v).
Proof. by case: q; rewrite /= ?opprD. Qed.

Lemma qrotN q u : qrot q (vneg u) = vneg (qrot q u).
Proof. by case: q. Qed.

Lemma qrot_comp a b u : qrot a (qrot b u) = qrot (qadd a b) u.
Proof. by case: a; case: b; rewrite /= ?opprK. Qed.

Lemma qrot0 u : qrot Q0 u = u.
Proof. by case: u. Qed.

Lemma qaddA a b c : qadd a (qadd b c) = qadd (qadd a b) c.
Proof. by case: a; case: b; case: c. Qed.

Lemma qaddNq a : qadd (qneg a) a = Q0.
Proof. by case: a. Qed.

Lemma qaddqN a : qadd a (qneg a) = Q0.
Proof. by case: a. Qed.

Lemma vaddA u v w : vadd u (vadd v w) = vadd (vadd u v) w.
Proof. by rewrite /vadd /= !addrA. Qed.

Lemma vaddC u v : vadd u v = vadd v u.
Proof. by rewrite /vadd addrC [u.2 + _]addrC. Qed.

Lemma vadd0 u : vadd (0, 0) u = u.
Proof. by case: u => x y; rewrite /vadd /= !add0r. Qed.

Lemma vaddNv u : vadd (vneg u) u = (0, 0).
Proof. by rewrite /vadd /vneg /= !addNr. Qed.

Lemma vaddvN u : vadd u (vneg u) = (0, 0).
Proof. by rewrite /vadd /vneg /= !addrN. Qed.

#[global] Instance pose2_laws : LieGroupLaws int pose2.
Proof.
  split.
  - move=> [ta ra] [tb rb] [tc rc].
    by rewrite /= /compose2 /= qrotD qrot_comp vaddA qaddA.
  - move=> [[x y] r]; rewrite /= /compose2 /identity2 /vadd /= !add0r.
    by case: r.
  - move=> [t r]; rewrite /= /compose2 /inverse2 /identity2 /=.
    by rewrite qrotN vaddNv qaddNq.
  - move=> [t r]; rewrite /= /compose2 /inverse2 /identity2 /=.
    by rewrite qrot_comp qaddqN ?qrot0 vaddvN.
  - move=> [ta ra] [tb rb]; rewrite /= /between2 /compose2 /inverse2 /=.
    by rewrite qrotD vaddC.
Qed.

End Pose2QLaws.


(** ** Helper lemmas *)

Section PsdLemmas.
Variable R : numDomainType.

Lemma psd_congr n (H C : 'M[R]_n) : psd C -> psd (H *m C *m H^T).
Proof.
  move=> HC x.
  have -> : x^T *m (H *m C *m H^T) *m x = (H^T *m x)^T *m C *m (H^T *m x).
    by rewrite trmx_mul trmxK !mulmxA.
  exact: HC.
Qed.

Lemma psd_add n (M N : 'M[R]_n) : psd M -> psd N -> psd (M + N).
Proof.
  move=> HM HN x.
  rewrite mulmxDr mulmxDl mxE.
  exact: addr_ge0.
Qed.

Lemma quad_delta n (M : 'M[R]_n.+1) (i : 'I_n.+1) :
  let e := @delta_mx R n.+1 1 i ord0 in (e^T *m M *m e) ord0 ord0 = M i i.
Proof. by rewrite /= trmx_delta -rowE -colE !mxE. Qed.
End PsdLemmas.

(** ** C1: [compose] *)

(** C1. For all [A] and [B], [compose A B] has pose [A.pose ∘ B.pose] and
    covariance [J_A Cov_A J_A^T + J_B Cov_B J_B^T], where [J_A] and [J_B]
    are the Jacobians gtsam's [compose] returns for each operand at
    [A.pose] and [B.pose]. *)
Theorem compose_covariance_propagation (R : ringType) (T : Type)
    `{LieGroup R T} (A B : PoseWithCovariance R T) :
  let JA := T_compose_H1 (pose A) (pose B) in
  let JB := T_compose_H2 (pose A) (pose B) in
  pose (compose A B) = T_compose (pose A) (pose B) /\
  covariance_matrix (compose A B) =
    JA *m covariance_matrix A *m JA^T + JB *m covariance_matrix B *m JB^T.
Proof. by []. Qed.

(** ** C9: distances of [PoseWithDistance] *)

(** C9. [compose_d A B] has distance [A.distance + |B.pose.translation()|],
    which does not depend on [B.distance]; [inverse_d] keeps the distance;
    [between_d A B] has distance [|B.distance - A.distance|]. *)
Theorem pose_with_distance_distances (R : numDomainType) (T : Type)
    `{PoseDims T} `{!LieGroup R T} `{!PoseMetric R T} (A B : PoseWithDistance R T) :
  distance (compose_d A B) = distance A + T_translation_norm (dpose B) /\
  (forall d, distance (compose_d A {| dpose := dpose B; distance := d |}) =
             distance (compose_d A B)) /\
  distance (inverse_d A) = distance A /\
  distance (between_d A B) = `|distance B - distance A|.
Proof. by []. Qed.

(** ** C4: the norms *)

(** C4. [norm A] is [sqrt(log^T Cov_A^-1 log)] with [log = Logmap(A.pose)];
    [norm_d D] is the Euclidean norm [sqrt(sum_i log_i^2)] of
    [log = Logmap(D.pose)] divided by [D.distance]. *)
Theorem norm_definitions (R : numFieldType) (T : Type) `{PoseMetric R T}
    (sqrt : R -> R) (A : PoseWithCovariance R T) (D : PoseWithDistance R T) :
  let logA := T_Logmap (pose A) in
  let logD := T_Logmap (dpose D) in
  norm sqrt A = sqrt ((logA^T *m invmx (covariance_matrix A) *m logA) 0 0) /\
  norm_d sqrt D = sqrt (\sum_i logD i 0 ^+ 2) / distance D.
Proof.
  split=> //.
  rewrite /norm_d mxE; congr (sqrt _ / _).
  by apply: eq_bigr => i _; rewrite mxE expr2.
Qed.

(** ** C3: the between-factor constructor *)

Section LayoutLemmas.
Variables (F : Type) (T : Type).
Context `{TangentLayout T}.

Lemma rot_block_first (C : 'M[F]_(getDim T)) :
  rotation_first T -> rot_block C = ulsubmx C.
Proof. by case=> Hr _; apply/matrixP => i j; rewrite !mxE !Hr. Qed.

Lemma trans_block_first (C : 'M[F]_(getDim T)) :
  rotation_first T -> trans_block C = drsubmx C.
Proof. by case=> _ Ht; apply/matrixP => i j; rewrite !mxE !Ht. Qed.
End LayoutLemmas.

(** C3 (as the code has it, for pose types whose covariance lists the
    rotation coordinates first, as [gtsam::Pose3]).  When [std::isnan]
    holds of the trace of the rotation block of the noise covariance, the
    constructed covariance has zero rotation rows and columns and the
    input's translation block; otherwise the covariance is the input's,
    unmodified.  The pose is the measurement. *)
Theorem pwc_of_between_nan_rotation (F : Type) (zero : F) (add : F -> F -> F)
    (isnan : F -> bool) (T : Type) `{TangentLayout T} (HL : rotation_first T)
    (bf : BetweenFactor F T) :
  let C := noise_covariance bf in
  let C' := covariance_matrix (pwc_of_between zero add isnan bf) in
  pose (pwc_of_between zero add isnan bf) = measured bf /\
  if isnan (trace_eigen zero add (rot_block C)) then
    (forall i k, C' (rot_index i) k = zero /\ C' k (rot_index i) = zero) /\
    trans_block C' = trans_block C
  else C' = C.
Proof.
  cbv zeta; rewrite (rot_block_first _ HL) !(trans_block_first _ HL).
  rewrite /pwc_of_between /=; split=> //.
  case: (isnan _) => //; split; last by rewrite block_mxKdr.
  case: HL => Hr _ i k; rewrite Hr.
  have -> : k = unsplit (split k) by rewrite splitK.
  by case: (split k) => j /=; rewrite ?block_mxEul ?block_mxEur ?block_mxEdl !mxE.
Qed.

Lemma pwc_of_between_nan_rotation_witness :
  rotation_first Pose3F.pose3 /\
  pose (Pose3F.pwc_of_between_double Pose3F.bf_nan_rotation) =
  measured Pose3F.bf_nan_rotation.
Proof.
  have HL : rotation_first Pose3F.pose3 by split.
  split; first exact: HL.
  exact: (pwc_of_between_nan_rotation PrimFloat.zero PrimFloat.add PrimFloat.is_nan
            HL Pose3F.bf_nan_rotation).1.
Defined.

Section Pose3Facts.
Import Pose3F.

Lemma enum_ord3 : enum 'I_3 = [:: ord0; inord 1; inord 2].
Proof.
  apply: (inj_map val_inj); rewrite val_enum_ord /=.
  by rewrite !inordK.
Qed.

Lemma trace_inf_rotation :
  trace_eigen PrimFloat.zero PrimFloat.add
    (ulsubmx (noise_covariance bf_inf_rotation)) = PrimFloat.infinity.
Proof.
  rewrite /trace_eigen enum_ord3 /= !mxE /= !eqxx !inordK //=.
Qed.
End Pose3Facts.

(** C3 counterexample.  At [double], a [gtsam::Pose3] measurement whose
    first rotation variance is [+inf] has a non-finite rotation trace
    ([+inf]) but is not [NaN], so the covariance is kept as it is: its
    first rotation row is not zero.  And for [gtsam::Pose2], whose
    rotation coordinate [theta] is the last, a [NaN] rotation variance is
    not seen (the header reads the [x] variance instead): the covariance
    is kept with its [NaN] rotation variance. *)
Lemma pwc_of_between_infinite_trace_kept :
  (let C := noise_covariance Pose3F.bf_inf_rotation in
   let C' := covariance_matrix (Pose3F.pwc_of_between_double Pose3F.bf_inf_rotation) in
   PrimFloat.is_finite (trace_eigen PrimFloat.zero PrimFloat.add (ulsubmx C)) = false /\
   C' = C /\
   C' (@ord0 5) (@ord0 5) = PrimFloat.infinity) /\
  (let D := noise_covariance Pose2F.bf_nan_theta in
   let D' := covariance_matrix
               (pwc_of_between PrimFloat.zero PrimFloat.add PrimFloat.is_nan Pose2F.bf_nan_theta) in
   PrimFloat.is_nan (trace_eigen PrimFloat.zero PrimFloat.add (rot_block D)) = true /\
   D' = D /\
   PrimFloat.is_nan (D' (rot_index (T := Pose2Q.pose2) (@ord0 0))
                        (rot_index (T := Pose2Q.pose2) (@ord0 0))) = true).
Proof.
  split.
    cbv zeta; rewrite trace_inf_rotation; split; first by vm_compute.
    rewrite /Pose3F.pwc_of_between_double /pwc_of_between trace_inf_rotation.
    have -> : PrimFloat.is_nan PrimFloat.infinity = false by vm_compute.
    split=> //.
    by rewrite /Pose3F.diag6 mxE.
  have E1 : enum 'I_1 = [:: ord0].
    by apply: (inj_map val_inj); rewrite val_enum_ord.
  have Ht : trace_eigen PrimFloat.zero PrimFloat.add
             (ulsubmx (noise_covariance Pose2F.bf_nan_theta)) = PrimFloat.one.
    by rewrite /trace_eigen E1 /= !mxE.
  cbv zeta; rewrite /pwc_of_between Ht.
  have -> : PrimFloat.is_nan PrimFloat.one = false by vm_compute.
  rewrite /trace_eigen E1 /= !mxE /=.
  by split; [vm_compute | split].
Qed.

(** ** C2: [between] and its fallback *)

(** C2 (as the code has it).  [between A B] has pose [A.pose.between(B.pose)]
    in every case.  Its covariance is [Cov_B - J Cov_A J^T] ([J] the
    Jacobian of [between] in its first operand at [(A.pose, B.pose)]) when
    the Cholesky factorization of that matrix succeeds; otherwise it is
    [Cov_A - J' Cov_B J'^T] with [J'] the Jacobian of [between] in its first
    operand at [(B.pose, A.pose)], without inversion of the pose or of the
    covariance.  The result does not depend on the outcome of the second
    Cholesky factorization: no flag is raised and the result is returned
    either way. *)
Theorem between_fallback (R : ringType) (T : Type) `{LieGroup R T}
    (llt_ok : 'M[R]_(getDim T) -> bool) (A B : PoseWithCovariance R T) :
  let out_pose := T_between (pose A) (pose B) in
  let J := T_between_H1 (pose A) (pose B) in
  let covar1 := covariance_matrix B - J *m covariance_matrix A *m J^T in
  let J' := T_between_H1 (pose B) (pose A) in
  let covar2 := covariance_matrix A - J' *m covariance_matrix B *m J'^T in
  between llt_ok A B =
    (if llt_ok covar1 then {| pose := out_pose; covariance_matrix := covar1 |}
     else {| pose := out_pose; covariance_matrix := covar2 |}) /\
  (forall llt_ok' : 'M[R]_(getDim T) -> bool,
     llt_ok' covar1 = llt_ok covar1 -> between llt_ok' A B = between llt_ok A B).
Proof.
  split=> [|llt' Heq] //.
  by rewrite /between /= Heq.
Qed.

Section Pose2Facts.
Import Pose2Q Pose2QInputs.

Lemma covar1_A_unit_B_shift_00 :
  let J := T_between_H1 (pose A_unit) (pose B_shift) in
  (covariance_matrix B_shift - J *m covariance_matrix A_unit *m J^T) o0 o0 = -1.
Proof.
  rewrite /= mulmx1 sub0r mxE mxE !big_ord_recr big_ord0 /= !mxE /=.
  by [].
Qed.

Lemma llt_fails_A_unit_B_shift :
  let J := T_between_H1 (pose A_unit) (pose B_shift) in
  llt_succeeds (covariance_matrix B_shift - J *m covariance_matrix A_unit *m J^T) = false.
Proof.
  move=> J; apply/negbTE/forallP => /(_ ord0).
  rewrite [leading _ _]mx11_scalar det_scalar1 mxE mxE /=.
  have -> : widen_ord (ltn_ord (@ord0 2)) ord0 = o0 by apply: val_inj.
  by rewrite covar1_A_unit_B_shift_00.
Qed.
End Pose2Facts.

(** C2 counterexample.  For [A] the identity pose with unit covariance and
    [B] one unit along x with zero covariance, the first covariance fails
    the Cholesky test; the code then returns covariance entry [(1,1) = 1],
    while recomputing [between(B, A)] and inverting it (as the claim says)
    gives [(1,1) = 2]. *)
Lemma between_fallback_not_inverted :
  let A := Pose2QInputs.A_unit in
  let B := Pose2QInputs.B_shift in
  let J := T_between_H1 (pose A) (pose B) in
  llt_succeeds (covariance_matrix B - J *m covariance_matrix A *m J^T) = false /\
  covariance_matrix (between (@llt_succeeds _ _) A B) Pose2QInputs.o1 Pose2QInputs.o1 = 1 /\
  covariance_matrix (between_as_specified (@llt_succeeds _ _) A B)
    Pose2QInputs.o1 Pose2QInputs.o1 = 2.
Proof.
  cbv zeta; split; first exact: llt_fails_A_unit_B_shift.
  rewrite /between /between_as_specified /between_unchecked /=.
  rewrite llt_fails_A_unit_B_shift /=.
  rewrite !mulmx0 !mul0mx !subr0 mulmx1.
  split; first by rewrite mxE.
  rewrite mxE !big_ord_recr big_ord0 /= !mxE /=.
  by [].
Qed.

(** ** C6: [between] after [compose] *)

(** C6.  For every [A], [r] (and every outcome of the Cholesky tests),
    the pose of [between A (compose A r)] is [r]'s pose: [between] computes
    its pose before, and independently of, the covariance checks, and
    [a.between(a.compose(r)) = r] in the pose group. *)
Theorem between_compose_recovers_pose (R : ringType) (T : Type) `{LieGroupLaws R T}
    (llt_ok : 'M[R]_(getDim T) -> bool) (A r : PoseWithCovariance R T) :
  pose (between llt_ok A (compose A r)) = pose r.
Proof.
  rewrite /between; case: (llt_ok _) => /=;
  by rewrite between_def compose_assoc compose_inv_l compose_id_l.
Qed.

Lemma between_compose_recovers_pose_witness :
  pose (between (@llt_succeeds _ _) Pose2QInputs.A_unit
          (compose Pose2QInputs.A_unit Pose2QInputs.r_turn)) =
  pose Pose2QInputs.r_turn.
Proof. exact: (between_compose_recovers_pose (@llt_succeeds _ _)). Defined.

(** ** C7: [compose] with [inverse] *)

Lemma psd_1 (R : realDomainType) n : psd (1%:M : 'M[R]_n).
Proof.
  move=> x; rewrite mulmx1 mxE.
  by apply: sumr_ge0 => i _; rewrite mxE -expr2 sqr_ge0.
Qed.

(** C7 (as the code has it).  For every [A] whose covariance is positive
    semi-definite, [compose A (inverse A)] is the identity pose and its
    propagated covariance is positive semi-definite. *)
Theorem compose_inverse_identity_psd (R : numDomainType) (T : Type) `{LieGroupLaws R T}
    (A : PoseWithCovariance R T) :
  psd (covariance_matrix A) ->
  pose (compose A (inverse A)) = T_identity /\
  psd (covariance_matrix (compose A (inverse A))).
Proof.
  move=> HA; split; first exact: compose_inv_r.
  by apply: psd_add; apply: psd_congr => //; apply: psd_congr.
Qed.

Lemma compose_inverse_identity_psd_witness :
  psd (covariance_matrix Pose2QInputs.A_unit) /\
  pose (compose Pose2QInputs.A_unit (inverse Pose2QInputs.A_unit)) = T_identity /\
  psd (covariance_matrix (compose Pose2QInputs.A_unit (inverse Pose2QInputs.A_unit))).
Proof.
  split; first exact: psd_1.
  apply: compose_inverse_identity_psd; exact: psd_1.
Defined.

Section Pose2Facts2.
Import Pose2Q Pose2QInputs.

Lemma compose_inverse_A_negcov_00 :
  covariance_matrix (compose A_negcov (inverse A_negcov)) o0 o0 = -2.
Proof.
  rewrite /= !(mxE, big_ord_recr, big_ord0) /=.
  by [].
Qed.
End Pose2Facts2.

(** C7 counterexample.  With covariance [-I] (not positive semi-definite)
    at the identity pose, [compose A (inverse A)] is the identity pose but
    its covariance has [-2] at [(0,0)]: the quadratic form is negative at
    the first basis vector. *)
Lemma compose_inverse_not_psd :
  let A := Pose2QInputs.A_negcov in
  let C := covariance_matrix (compose A (inverse A)) in
  pose (compose A (inverse A)) = T_identity /\
  C Pose2QInputs.o0 Pose2QInputs.o0 = -2 /\
  (exists x : 'cV[int]_3, (x^T *m C *m x) ord0 ord0 < 0) /\
  ~ psd C.
Proof.
  cbv zeta.
  have Heq := eq_trans (quad_delta (n := 2) _ Pose2QInputs.o0)
                       compose_inverse_A_negcov_00.
  have Hneg := eq_ind_r (fun v => v < 0) (isT : (-2 : int) < 0) Heq.
  split; first exact: compose_inv_r.
  split; first exact: compose_inverse_A_negcov_00.
  split; first by exists (delta_mx Pose2QInputs.o0 ord0).
  move=> Hpsd; have := Order.POrderTheory.le_lt_trans (Hpsd (delta_mx Pose2QInputs.o0 ord0)) Hneg.
  by rewrite Order.POrderTheory.ltxx.
Qed.

(** ** C8: the methods do not modify their operands *)

Section StoreLemmas.
Variables (V L : Type) (dflt : V).

Lemma load_rcons_old (h : store V) v l : (l < size h)%N -> load (rcons h v) l = load h l.
Proof. by elim: h l => [|x h IH] [|l] //= Hl; apply: IH. Qed.

Lemma load_rcons_new (h : store V) v : load (rcons h v) (size h) = Some v.
Proof. by elim: h. Qed.

Lemma load_size (h : store V) : load h (size h) = None.
Proof. by elim: h. Qed.

Lemma load_lt (h : store V) l v : load h l = Some v -> (l < size h)%N.
Proof. by elim: h l => [|x h IH] [|l] //= /IH. Qed.

Lemma load_nth (h : store V) l v : load h l = Some v -> nth dflt h l = v.
Proof. by elim: h l => [|x h IH] [|l] //= => [[->]|/IH]. Qed.

Lemma load_set_nth (s : store V) n y l : (n < size s)%N ->
  load (set_nth dflt s n y) l = if l == n then Some y else load s l.
Proof.
  elim: s n l => [|x s IH] [|n] [|l] //= Hn; rewrite ?IH //.
Qed.

(** Bodies that assign to no object but [out]. *)
Fixpoint writes_only_out (s : stmt V L) : bool :=
  match s with
  | SSkip | SLocal _ => true
  | SSeq s1 s2 | SIf _ s1 s2 => writes_only_out s1 && writes_only_out s2
  | SSet Out _ => true
  | SSet _ _ => false
  end.

(** The frame of a call on the store [h]: [out] is the one new object and
    every older object is as it was. *)
Definition frame (h : store V) (a : activation V L) : Prop :=
  out_addr a = size h /\ size (heap a) = (size h).+1 /\
  forall l, (l < size h)%N -> load (heap a) l = load h l.

Lemma exec_frame s h a : writes_only_out s -> frame h a ->
  exists a', exec dflt s a = Some a' /\ frame h a' /\
             this_addr a' = this_addr a /\ other_addr a' = other_addr a.
Proof.
  elim: s a => [|s1 IH1 s2 IH2|c s1 IH1 s2 IH2|o f|f] a /=.
  - by move=> _ Hf; exists a.
  - case/andP=> W1 W2 Hf.
    have [a1 [-> [Hf1 [E1 E1']]]] := IH1 a W1 Hf.
    have [a2 [-> [Hf2 [E2 E2']]]] := IH2 a1 W2 Hf1.
    by exists a2; rewrite E2 E2' E1 E1'.
  - by case/andP=> W1 W2 Hf; case: (c a); [apply: IH1 | apply: IH2].
  - case: o => // _ [Ho [Hs Hl]] /=.
    rewrite Ho Hs ltnSn; eexists; split; first reflexivity.
    split=> //; rewrite /frame /=; split=> //; split; first by rewrite size_set_nth Hs maxnn.
    move=> l Hlt; rewrite load_set_nth ?Hs // (ltn_eqF Hlt); exact: Hl.
  - by move=> _ Hf; eexists.
Qed.
End StoreLemmas.

Section Calls.
Variables (R : numFieldType) (T : Type).
Context `{PD : PoseDims T} `{LG : !LieGroup R T} `{PM : !PoseMetric R T}.
Variables (llt_ok : 'M[R]_(getDim T) -> bool) (sqrt : R -> R).
Local Notation dpwc := (pwc_default (R := R) (T := T)).
Local Notation dpwd := (pwd_default (R := R) (T := T)).

Lemma method_frame V L (dflt : V) (body : stmt V L) out0 l0 (op : V -> V -> V) h self other :
  writes_only_out body ->
  (forall x y a', load h self = Some x -> load h other = Some y ->
     exec dflt body (Activation (rcons h out0) self other (size h) l0) = Some a' ->
     nth dflt (heap a') (size h) = op x y) ->
  method_spec dflt body out0 l0 op h self other.
Proof.
  move=> W Hval; rewrite /method_spec /call_method.
  case Hs: (load h self) => [x|]; last by left.
  case Ho: (load h other) => [y|]; last by right.
  have Hf : frame h (Activation (rcons h out0) self other (size h) l0).
    split=> //=; split; first by rewrite size_rcons.
    by move=> l Hl; rewrite load_rcons_old.
  have [a' [E [[_ [Hsz Hl]] _]]] := exec_frame dflt W Hf.
  rewrite /= E; exists x, y; do 2 split=> //.
  split; first exact: load_size.
  split=> //.
  rewrite -(Hval x y a' Hs Ho E).
  elim: (heap a') (size h) Hsz => [|z s IH] [|n] //= [Hn]; exact: IH.
Qed.

Ltac run_body Hs Ho :=
  do 3 rewrite /= /read /= ?size_set_nth ?size_rcons ?maxnn ?ltnSn /= ?nth_set_nth /= ?eqxx
    ?(ltn_eqF (load_lt Hs)) ?(ltn_eqF (load_lt Ho)) ?nth_rcons ?(load_lt Hs) ?(load_lt Ho)
    ?ltnn ?eqxx ?(load_nth _ Hs) ?(load_nth _ Ho).

Lemma compose_value h self other x y l0 a' :
  load h self = Some x -> load h other = Some y ->
  exec dpwc (compose_body (R := R) (T := T))
    (Activation (rcons h dpwc) self other (size h) l0) = Some a' ->
  nth dpwc (heap a') (size h) = compose x y.
Proof. by move=> Hs Ho; run_body Hs Ho => -[<-]; run_body Hs Ho. Qed.

Lemma inverse_value h self x l0 a' :
  load h self = Some x ->
  exec dpwc (inverse_body (R := R) (T := T))
    (Activation (rcons h dpwc) self self (size h) l0) = Some a' ->
  nth dpwc (heap a') (size h) = inverse x.
Proof. by move=> Hs; run_body Hs Hs => -[<-]; run_body Hs Hs. Qed.

Lemma between_value h self other x y l0 a' :
  load h self = Some x -> load h other = Some y ->
  exec dpwc (between_body llt_ok)
    (Activation (rcons h dpwc) self other (size h) l0) = Some a' ->
  nth dpwc (heap a') (size h) = between llt_ok x y.
Proof.
  move=> Hs Ho; run_body Hs Ho; rewrite /between /=.
  by case: (llt_ok _); run_body Hs Ho => -[<-]; run_body Hs Ho.
Qed.

Lemma compose_d_value h self other x y l0 a' :
  load h self = Some x -> load h other = Some y ->
  exec dpwd (compose_d_body (R := R) (T := T))
    (Activation (rcons h dpwd) self other (size h) l0) = Some a' ->
  nth dpwd (heap a') (size h) = compose_d x y.
Proof. by move=> Hs Ho; run_body Hs Ho => -[<-]; run_body Hs Ho. Qed.

Lemma inverse_d_value h self x l0 a' :
  load h self = Some x ->
  exec dpwd (inverse_d_body (R := R) (T := T))
    (Activation (rcons h dpwd) self self (size h) l0) = Some a' ->
  nth dpwd (heap a') (size h) = inverse_d x.
Proof. by move=> Hs; run_body Hs Hs => -[<-]; run_body Hs Hs. Qed.

Lemma between_d_value h self other x y l0 a' :
  load h self = Some x -> load h other = Some y ->
  exec dpwd (between_d_body (R := R) (T := T))
    (Activation (rcons h dpwd) self other (size h) l0) = Some a' ->
  nth dpwd (heap a') (size h) = between_d x y.
Proof. by move=> Hs Ho; run_body Hs Ho => -[<-]; run_body Hs Ho. Qed.

Lemma norm_value h self x l0 a' :
  load h self = Some x ->
  exec dpwc (norm_body (R := R) (T := T))
    (Activation h self self (size h) l0) = Some a' ->
  norm_result sqrt a' = norm sqrt x.
Proof. by move=> Hs [<-]; rewrite /norm_result /read /= (load_nth _ Hs). Qed.

Lemma norm_d_value h self x l0 a' :
  load h self = Some x ->
  exec dpwd (norm_d_body (R := R) (T := T))
    (Activation h self self (size h) l0) = Some a' ->
  norm_d_result sqrt a' = norm_d sqrt x.
Proof. by move=> Hs [<-]; rewrite /norm_d_result /read /= (load_nth _ Hs). Qed.
End Calls.

Section Queries.
Variables (V L S : Type) (dflt : V).

(** Bodies that assign to no object at all. *)
Fixpoint writes_no_object (s : stmt V L) : bool :=
  match s with
  | SSkip | SLocal _ => true
  | SSeq s1 s2 | SIf _ s1 s2 => writes_no_object s1 && writes_no_object s2
  | SSet _ _ => false
  end.

Lemma exec_no_write s a : writes_no_object s ->
  exists a', exec dflt s a = Some a' /\ heap a' = heap a.
Proof.
  elim: s a => [|s1 IH1 s2 IH2|c s1 IH1 s2 IH2|o f|f] a //=.
  - by move=> _; exists a.
  - case/andP=> W1 W2.
    have [a1 [-> E1]] := IH1 a W1.
    have [a2 [-> E2]] := IH2 a1 W2.
    by exists a2; rewrite E2 E1.
  - by case/andP=> W1 W2; case: (c a); [apply: IH1 | apply: IH2].
  - by move=> _; eexists.
Qed.

Lemma query_frame (body : stmt V L) (result : activation V L -> S) l0 (op : V -> S) h self :
  writes_no_object body ->
  (forall x a', load h self = Some x ->
     exec dflt body (Activation h self self (size h) l0) = Some a' -> result a' = op x) ->
  query_spec dflt body result l0 op h self.
Proof.
  move=> W Hval; rewrite /query_spec /call_query.
  case Hs: (load h self) => [x|] //.
  have [a' [E Eh]] := exec_no_write (Activation h self self (size h) l0) W.
  rewrite E; split=> //; exists x; split=> //.
  exact: Hval Hs E.
Qed.
End Queries.

(** C8.  Running the bodies of [compose], [inverse], [between] and [norm]
    of either structure, on objects in a store (possibly the same object
    twice), leaves every existing object, the operands included,
    unchanged: the methods returning an object return a freshly allocated
    one holding [compose], [inverse], [between] of the operands, and
    [norm] returns its value with the store as it was. *)
Theorem methods_leave_operands_unchanged (R : numFieldType) (T : Type)
    `{PoseDims T} `{!LieGroup R T} `{!PoseMetric R T}
    (llt_ok : 'M[R]_(getDim T) -> bool) (sqrt : R -> R)
    (h : store (PoseWithCovariance R T)) (hd : store (PoseWithDistance R T))
    (self other : nat) :
  let dpwc := pwc_default (R := R) (T := T) in
  let dpwd := pwd_default (R := R) (T := T) in
  method_spec dpwc (compose_body (R := R) (T := T)) dpwc (pwc_locals0 R (T := T))
    (fun a b => compose a b) h self other /\
  method_spec dpwc (inverse_body (R := R) (T := T)) dpwc (pwc_locals0 R (T := T))
    (fun a _ => inverse a) h self self /\
  method_spec dpwc (between_body llt_ok) dpwc (pwc_locals0 R (T := T))
    (fun a b => between llt_ok a b) h self other /\
  query_spec dpwc (norm_body (R := R) (T := T)) (norm_result sqrt) (pwc_locals0 R (T := T))
    (fun a => norm sqrt a) h self /\
  method_spec dpwd (compose_d_body (R := R) (T := T)) dpwd 0
    (fun a b => compose_d a b) hd self other /\
  method_spec dpwd (inverse_d_body (R := R) (T := T)) dpwd 0
    (fun a _ => inverse_d a) hd self self /\
  method_spec dpwd (between_d_body (R := R) (T := T)) dpwd 0
    (fun a b => between_d a b) hd self other /\
  query_spec dpwd (norm_d_body (R := R) (T := T)) (norm_d_result sqrt) 0
    (fun a => norm_d sqrt a) hd self.
Proof.
  split; first by apply: method_frame => // x y a'; apply: compose_value.
  split; first by apply: method_frame => // x y a' Hs _; apply: inverse_value.
  split; first by apply: method_frame => // x y a'; apply: between_value.
  split; first by apply: query_frame => // x a'; apply: norm_value.
  split; first by apply: method_frame => // x y a'; apply: compose_d_value.
  split; first by apply: method_frame => // x y a' Hs _; apply: inverse_d_value.
  split; first by apply: method_frame => // x y a'; apply: between_d_value.
  by apply: query_frame => // x a'; apply: norm_d_value.
Qed.

(** ** C10: the norms' unchecked preconditions *)

Lemma zero_unitmx (R : numFieldType) n : ((0 : 'M[R]_n) \in unitmx) = (n == 0)%N.
Proof.
  case: n => [|n]; first by rewrite unitmxE det_mx00 unitr1.
  by rewrite unitmxE det0 unitr0.
Qed.

(** C10.  [norm_d] divides by the distance without a check and a pose
    built from a prior factor has distance [0], so its norm is a division
    by zero; [norm] inverts the covariance without a check and the default
    and prior-factor constructors give the zero covariance, which is
    singular whenever [getDim<T>() > 0].  Where the preconditions hold the
    checked computations agree with [norm_d] and [norm]. *)
Theorem norm_preconditions_unchecked (R : numFieldType) (T : Type)
    `{PoseDims T} `{!LieGroup R T} `{!PoseMetric R T} (sqrt : R -> R) :
  (forall pf : PriorFactor T,
     distance (pwd_of_prior R pf) = 0 /\
     norm_d_checked sqrt (pwd_of_prior R pf) = None) /\
  (forall D : PoseWithDistance R T,
     distance D != 0 -> norm_d_checked sqrt D = Some (norm_d sqrt D)) /\
  (forall pf : PriorFactor T,
     covariance_matrix (pwc_of_prior R pf) = 0 /\
     (norm_checked sqrt (pwc_of_prior R pf) == None) = (0 < getDim T)%N) /\
  (covariance_matrix (pwc_default (R := R) (T := T)) = 0 /\
   (norm_checked sqrt (pwc_default (R := R) (T := T)) == None) = (0 < getDim T)%N) /\
  (forall A : PoseWithCovariance R T,
     covariance_matrix A \in unitmx -> norm_checked sqrt A = Some (norm sqrt A)).
Proof.
  split.
    by move=> pf; rewrite /norm_d_checked /div_checked /= eqxx.
  split.
    by move=> D HD; rewrite /norm_d_checked /div_checked (negbTE HD).
  split.
    move=> pf; split=> //.
    rewrite /norm_checked /inverse_checked /= zero_unitmx lt0n.
    by case: (getDim T == 0)%N.
  split.
    split=> //.
    rewrite /norm_checked /inverse_checked /= zero_unitmx lt0n.
    by case: (getDim T == 0)%N.
  by move=> A HA; rewrite /norm_checked /inverse_checked HA.
Qed.

(* ================================================================== *)
(** * Further properties of the operations *)

(** ** Consequences of the group laws *)

Section GroupLemmas.
Variables (R : Type) (T : Type).
Context `{LieGroupLaws R T}.

Lemma compose_id_r a : T_compose a T_identity = a.
Proof. by rewrite -(compose_inv_l a) compose_assoc compose_inv_r compose_id_l. Qed.

Lemma inverse_unique a b : T_compose a b = T_identity -> a = T_inverse b.
Proof.
  move=> Hab.
  by rewrite -[a]compose_id_r -(compose_inv_r b) compose_assoc Hab compose_id_l.
Qed.

Lemma inverse_inverse a : T_inverse (T_inverse a) = a.
Proof. by apply/esym/inverse_unique; exact: compose_inv_r. Qed.

Lemma inverse_identity : T_inverse T_identity = T_identity.
Proof. by apply/esym/inverse_unique; exact: compose_id_l. Qed.

Lemma inverse_compose a b :
  T_inverse (T_compose a b) = T_compose (T_inverse b) (T_inverse a).
Proof.
  apply/esym/inverse_unique.
  rewrite -compose_assoc [T_compose (T_inverse a) _]compose_assoc.
  by rewrite compose_inv_l compose_id_l compose_inv_l.
Qed.
End GroupLemmas.

(** ** The planar pose type: gtsam's adjoint map is a homomorphism *)

Module Pose2QAdjoint.
Import Pose2Q.

Lemma qrot_cs q u : qrot q u = (qc q * u.1 - qs q * u.2, qs q * u.1 + qc q * u.2).
Proof.
  case: u => x y; case: q; rewrite /= ?(mul1r, mul0r, mulN1r, subr0, sub0r, add0r, addr0, opprK) //.
Qed.
Lemma qc_add a b : qc (qadd a b) = qc a * qc b - qs a * qs b.
Proof. by case: a; case: b; reflexivity. Qed.
Lemma qs_add a b : qs (qadd a b) = qs a * qc b + qc a * qs b.
Proof. by case: a; case: b; reflexivity. Qed.

Lemma AdjointMap_compose a b :
  AdjointMap (compose2 a b) = AdjointMap a *m AdjointMap b.
Proof.
  case: a => [[x1 y1] q1]; case: b => [[x2 y2] q2].
  rewrite /compose2 /AdjointMap /= qrot_cs qc_add qs_add /=.
  apply/matrixP => -[[|[|[|i]]] Hi] -[[|[|[|j]]] Hj] //;
  rewrite !mxE !big_ord_recr big_ord0 !mxE /= add0r.
  all: first [ by rewrite mulNr mulr0 addr0
             | by rewrite mulr0 addr0 mulrN mulNr opprD [LHS]addrC
             | by rewrite mulrNN mulr1 [LHS]addrC [qs _ * _ + _]addrC
             | by rewrite mulr0 addr0
             | by rewrite mulr0 addr0 mulrN addrC
             | by rewrite mulr1 mulrN opprD opprB [LHS]addrC
             | by rewrite !mul0r !add0r ?mul1r ].
Qed.

Lemma AdjointMap_identity : AdjointMap identity2 = 1%:M.
Proof.
  apply/matrixP => -[[|[|[|i]]] Hi] -[[|[|[|j]]] Hj] //;
  by rewrite !mxE /= ?oppr0.
Qed.

Lemma between2_self a : between2 a a = identity2.
Proof. exact: (eq_trans (between_def a a) (compose_inv_l a)). Qed.

Lemma inverse2_identity : inverse2 identity2 = identity2.
Proof. exact: (inverse_identity (T := pose2)). Qed.

Lemma between_H1_self (a : pose2) : T_between_H1 a a = - 1%:M.
Proof.
  by rewrite /= between2_self inverse2_identity AdjointMap_identity.
Qed.

Lemma compose_H1_identity (a : pose2) : T_compose_H1 a T_identity = 1%:M.
Proof. by rewrite /= inverse2_identity AdjointMap_identity. Qed.
End Pose2QAdjoint.

(** ** The line: group laws *)

Module Line1Laws.
Import Line1.

#[global] Instance line_laws : LieGroupLaws int line.
Proof.
  split.
  - by move=> [a] [b] [c]; rewrite /= addrA.
  - by move=> [a]; rewrite /= add0r.
  - by move=> [a]; rewrite /= addNr.
  - by move=> [a]; rewrite /= addrN.
  - by move=> [a] [b]; rewrite /= addrC.
Qed.
End Line1Laws.

(** ** IEEE [NaN] propagates through Eigen's [trace()] *)

Section FloatNaN.

Lemma is_nan_Prim2SF (x : float) :
  PrimFloat.is_nan x = true -> FloatOps.Prim2SF x = SpecFloat.S754_nan.
Proof.
  rewrite /PrimFloat.is_nan FloatAxioms.eqb_spec.
  case: (FloatOps.Prim2SF x) => [s|s| |s m e] //.
  - by case: s.
  - rewrite /SpecFloat.SFeqb /SpecFloat.SFcompare BinInt.Z.compare_refl BinPos.Pos.compare_cont_refl.
    by case: s.
Qed.

Lemma is_nan_SF (x : float) :
  FloatOps.Prim2SF x = SpecFloat.S754_nan -> PrimFloat.is_nan x = true.
Proof. by move=> Hx; rewrite /PrimFloat.is_nan FloatAxioms.eqb_spec Hx. Qed.

Lemma is_nan_add_l (x y : float) :
  PrimFloat.is_nan x = true -> PrimFloat.is_nan (PrimFloat.add x y) = true.
Proof.
  move=> /is_nan_Prim2SF Hx; apply: is_nan_SF.
  by rewrite FloatAxioms.add_spec Hx.
Qed.

Lemma is_nan_add_r (x y : float) :
  PrimFloat.is_nan y = true -> PrimFloat.is_nan (PrimFloat.add x y) = true.
Proof.
  move=> /is_nan_Prim2SF Hy; apply: is_nan_SF.
  rewrite FloatAxioms.add_spec Hy.
  by case: (FloatOps.Prim2SF x).
Qed.

Lemma is_nan_foldl (d : float) (ds : seq float) :
  PrimFloat.is_nan d || has PrimFloat.is_nan ds ->
  PrimFloat.is_nan (foldl PrimFloat.add d ds) = true.
Proof.
  elim: ds d => [|e ds IH] d /=; first by rewrite orbF.
  move=> H; apply: IH; case/orP: H => [Hd|/orP[He|Hds]].
  - by rewrite is_nan_add_l.
  - by rewrite is_nan_add_r.
  - by rewrite Hds orbT.
Qed.

Lemma trace_eigen_nan n (M : 'M[float]_n) (i : 'I_n) :
  PrimFloat.is_nan (M i i) = true ->
  PrimFloat.is_nan (trace_eigen PrimFloat.zero PrimFloat.add M) = true.
Proof.
  move=> Hi; rewrite /trace_eigen.
  have : has PrimFloat.is_nan [seq M j j | j <- enum 'I_n].
    by rewrite has_map; apply/hasP; exists i; rewrite ?mem_enum.
  case: [seq _ | _ <- _] => [//|d ds] /= H.
  exact: is_nan_foldl.
Qed.
End FloatNaN.

(** ** Symmetry and definiteness of the propagated covariances *)

Lemma symmetric_congr (R : comRingType) n (H C : 'M[R]_n) :
  symmetric C -> symmetric (H *m C *m H^T).
Proof. by move=> HC; rewrite /symmetric !trmx_mul trmxK HC mulmxA. Qed.

(** X1.  [compose] keeps covariances positive semi-definite: if both
    operands' covariances are, so is the propagated one. *)
Theorem compose_preserves_psd (R : numDomainType) (T : Type) `{LieGroup R T}
    (A B : PoseWithCovariance R T) :
  psd (covariance_matrix A) -> psd (covariance_matrix B) ->
  psd (covariance_matrix (compose A B)).
Proof. by move=> HA HB; apply: psd_add; apply: psd_congr. Qed.

Lemma compose_preserves_psd_witness :
  psd (covariance_matrix Pose2QInputs.A_unit) /\
  psd (covariance_matrix Pose2QInputs.r_turn) /\
  psd (covariance_matrix (compose Pose2QInputs.A_unit Pose2QInputs.r_turn)).
Proof.
  split; first exact: psd_1.
  split; first exact: psd_1.
  apply: compose_preserves_psd; exact: psd_1.
Defined.

(** X2.  [inverse] keeps a covariance positive semi-definite. *)
Theorem inverse_preserves_psd (R : numDomainType) (T : Type) `{LieGroup R T}
    (A : PoseWithCovariance R T) :
  psd (covariance_matrix A) -> psd (covariance_matrix (inverse A)).
Proof. exact: psd_congr. Qed.

Lemma inverse_preserves_psd_witness :
  psd (covariance_matrix Pose2QInputs.r_turn) /\
  psd (covariance_matrix (inverse Pose2QInputs.r_turn)).
Proof. split; [exact: psd_1 | apply: inverse_preserves_psd; exact: psd_1]. Defined.

(** X3.  Symmetric covariances stay symmetric under [compose], [inverse]
    and [between], whichever branch [between] takes. *)
Theorem operations_preserve_symmetry (R : comRingType) (T : Type) `{LieGroup R T}
    (llt_ok : 'M[R]_(getDim T) -> bool) (A B : PoseWithCovariance R T) :
  symmetric (covariance_matrix A) -> symmetric (covariance_matrix B) ->
  symmetric (covariance_matrix (compose A B)) /\
  symmetric (covariance_matrix (inverse A)) /\
  symmetric (covariance_matrix (between llt_ok A B)).
Proof.
  move=> HA HB.
  have HJA := symmetric_congr _ HA; have HJB := symmetric_congr _ HB.
  split; first by rewrite /symmetric /= raddfD /= HJA HJB.
  split; first exact: HJA.
  rewrite /between; case: (llt_ok _) => /=.
  - by rewrite /symmetric raddfB /= HB HJA.
  - by rewrite /symmetric raddfB /= HA HJB.
Qed.

Lemma operations_preserve_symmetry_witness :
  symmetric (covariance_matrix Pose2QInputs.A_unit) /\
  symmetric (covariance_matrix Pose2QInputs.r_turn) /\
  symmetric (covariance_matrix (compose Pose2QInputs.A_unit Pose2QInputs.r_turn)) /\
  symmetric (covariance_matrix (inverse Pose2QInputs.A_unit)) /\
  symmetric (covariance_matrix
               (between (@llt_succeeds _ _) Pose2QInputs.A_unit Pose2QInputs.r_turn)).
Proof.
  have H1 : symmetric (1%:M : 'M[int]_3) by exact: trmx1.
  split; first exact: H1.
  split; first exact: H1.
  exact: (operations_preserve_symmetry (R := int) (T := Pose2Q.pose2)
            (A := Pose2QInputs.A_unit) (B := Pose2QInputs.r_turn)
            (@llt_succeeds _ _) H1 H1).
Defined.

(** X4.  Poses built from prior factors carry zero covariance, and
    [compose], [inverse] and [between] (on either branch) keep it zero. *)
Theorem prior_poses_zero_covariance (R : ringType) (T : Type) `{LieGroup R T}
    (llt_ok : 'M[R]_(getDim T) -> bool) (pa pb : PriorFactor T) :
  let A := pwc_of_prior R pa in
  let B := pwc_of_prior R pb in
  covariance_matrix (compose A B) = 0 /\
  covariance_matrix (inverse A) = 0 /\
  covariance_matrix (between llt_ok A B) = 0.
Proof.
  rewrite /= !mulmx0 !mul0mx addr0; do 2 split=> //.
  by rewrite /between /= !mulmx0 !mul0mx subr0; case: (llt_ok _).
Qed.

(** ** The between-factor constructor *)

(** X5.  A symmetric noise covariance gives a symmetric covariance; and,
    for a pose type whose covariance lists the rotation coordinates first,
    the constructed covariance keeps the input's translation block
    whatever the rotation trace. *)
Theorem pwc_of_between_translation_symmetric (F : Type) (zero : F)
    (add : F -> F -> F) (isnan : F -> bool) (T : Type) `{TangentLayout T}
    (bf : BetweenFactor F T) :
  let C := noise_covariance bf in
  let C' := covariance_matrix (pwc_of_between zero add isnan bf) in
  (rotation_first T -> trans_block C' = trans_block C) /\
  (symmetric C -> symmetric C').
Proof.
  cbv zeta; split.
    move=> HL; rewrite !(trans_block_first _ HL) /pwc_of_between /=.
    by case: (isnan _) => //; rewrite block_mxKdr.
  rewrite /pwc_of_between /=; case: (isnan _) => //= HC.
  by rewrite /symmetric tr_block_mx !trmx_const trmx_drsub HC.
Qed.

Lemma diag6_symmetric d : symmetric (Pose3F.diag6 d).
Proof.
  apply/matrixP => i j; rewrite !mxE eq_sym.
  by case: eqP => // ->.
Qed.

Lemma pwc_of_between_translation_symmetric_witness :
  rotation_first Pose3F.pose3 /\
  symmetric (noise_covariance Pose3F.bf_nan_rotation) /\
  trans_block (covariance_matrix (Pose3F.pwc_of_between_double Pose3F.bf_nan_rotation)) =
  trans_block (noise_covariance Pose3F.bf_nan_rotation) /\
  symmetric (covariance_matrix (Pose3F.pwc_of_between_double Pose3F.bf_nan_rotation)).
Proof.
  have HL : rotation_first Pose3F.pose3 by split.
  have HC : symmetric (noise_covariance Pose3F.bf_nan_rotation) by exact: diag6_symmetric.
  have X := pwc_of_between_translation_symmetric PrimFloat.zero PrimFloat.add
              PrimFloat.is_nan Pose3F.bf_nan_rotation.
  split; first exact: HL.
  split; first exact: HC.
  cbv zeta in X; case: X => X1 X2.
  split; [exact: (X1 HL) | exact: (X2 HC)].
Defined.

(** X6.  At [double], for a pose type whose covariance lists the rotation
    coordinates first, a [NaN] anywhere on the diagonal of the rotation
    block makes Eigen's trace [NaN], so the rotation rows and columns are
    zeroed and only the translation block is kept. *)
Theorem pwc_of_between_nan_diagonal (T : Type) `{TangentLayout T}
    (HL : rotation_first T) (bf : BetweenFactor float T) (i : 'I_(@rot_dim T _)) :
  PrimFloat.is_nan (rot_block (noise_covariance bf) i i) = true ->
  covariance_matrix (pwc_of_between PrimFloat.zero PrimFloat.add PrimFloat.is_nan bf) =
  block_mx (const_mx PrimFloat.zero) (const_mx PrimFloat.zero)
           (const_mx PrimFloat.zero) (drsubmx (noise_covariance bf)).
Proof.
  rewrite (rot_block_first _ HL) => Hi.
  by rewrite /pwc_of_between /= (trace_eigen_nan Hi).
Qed.

Lemma pwc_of_between_nan_diagonal_witness :
  rotation_first Pose3F.pose3 /\
  PrimFloat.is_nan (rot_block (noise_covariance Pose3F.bf_nan_rotation) ord0 ord0) = true /\
  covariance_matrix (Pose3F.pwc_of_between_double Pose3F.bf_nan_rotation) =
  block_mx (const_mx PrimFloat.zero) (const_mx PrimFloat.zero)
           (const_mx PrimFloat.zero) (drsubmx (noise_covariance Pose3F.bf_nan_rotation)).
Proof.
  have HL : rotation_first Pose3F.pose3 by split.
  have Hi : PrimFloat.is_nan
              (rot_block (noise_covariance Pose3F.bf_nan_rotation) ord0 ord0) = true.
    by rewrite /= !mxE eqxx /=; vm_compute.
  split; first exact: HL.
  split; first exact: Hi.
  exact: (pwc_of_between_nan_diagonal HL Hi).
Defined.

(** ** [compose], [inverse] and [between] with gtsam's Jacobians

    gtsam's Jacobians are built from the adjoint map [Ad]: [compose] has
    [H1 = Ad(other^-1)] and [H2 = I], [inverse] has [H = -Ad(pose)], and
    [between] has [H1 = -Ad(result^-1)], so [H1 = -I] for [between(a, a)].
    The theorems below take these facts as hypotheses, with [Ad] a group
    homomorphism sending the identity to [I]. *)

(** X7.  The default pose (identity, zero covariance) is a left and right
    unit of [compose], covariance included. *)
Theorem compose_default_unit (R : ringType) (T : Type) `{LieGroupLaws R T}
    (Ad : T -> 'M[R]_(getDim T))
    (HJ1 : forall a b, T_compose_H1 a b = Ad (T_inverse b))
    (HJ2 : forall a b, T_compose_H2 a b = 1%:M)
    (HAd1 : Ad T_identity = 1%:M) (A : PoseWithCovariance R T) :
  compose (pwc_default (R := R) (T := T)) A = A /\ compose A (pwc_default (R := R) (T := T)) = A.
Proof.
  case: A => a C; rewrite /compose /pwc_default /= !HJ2 !HJ1 inverse_identity HAd1.
  rewrite !trmx1 !mulmx1 !mul1mx !mulmx0 !mul0mx add0r addr0.
  by rewrite compose_id_l compose_id_r.
Qed.

Lemma compose_default_unit_witness :
  (forall a b : Pose2Q.pose2,
     T_compose_H1 a b = Pose2Q.AdjointMap (T_inverse b)) /\
  (forall a b : Pose2Q.pose2, T_compose_H2 a b = 1%:M) /\
  Pose2Q.AdjointMap T_identity = 1%:M /\
  compose (pwc_default (R := int) (T := Pose2Q.pose2)) Pose2QInputs.r_turn = Pose2QInputs.r_turn /\
  compose Pose2QInputs.r_turn (pwc_default (R := int) (T := Pose2Q.pose2)) = Pose2QInputs.r_turn.
Proof.
  have HAd1 := Pose2QAdjoint.AdjointMap_identity.
  do 2 (split; first by []).
  split; first exact: HAd1.
  exact: (compose_default_unit (R := int) (T := Pose2Q.pose2) (Ad := Pose2Q.AdjointMap)
            (fun _ _ => erefl) (fun _ _ => erefl) HAd1 Pose2QInputs.r_turn).
Defined.

(** X8.  [compose] is associative, covariance included: propagating
    through [(A.compose(B)).compose(C)] and through
    [A.compose(B.compose(C))] gives the same matrix. *)
Theorem compose_associative (R : comRingType) (T : Type) `{LieGroupLaws R T}
    (Ad : T -> 'M[R]_(getDim T))
    (HJ1 : forall a b, T_compose_H1 a b = Ad (T_inverse b))
    (HJ2 : forall a b, T_compose_H2 a b = 1%:M)
    (HAd : forall a b, Ad (T_compose a b) = Ad a *m Ad b)
    (A B C : PoseWithCovariance R T) :
  compose A (compose B C) = compose (compose A B) C.
Proof.
  case: A => a CA; case: B => b CB; case: C => c CC.
  rewrite /compose /= !HJ2 !HJ1 inverse_compose HAd compose_assoc.
  rewrite !trmx1 !mulmx1 !mul1mx trmx_mul mulmxDr mulmxDl !mulmxA addrA.
  by [].
Qed.

Lemma compose_associative_witness :
  (forall a b : Pose2Q.pose2,
     T_compose_H1 a b = Pose2Q.AdjointMap (T_inverse b)) /\
  (forall a b : Pose2Q.pose2, T_compose_H2 a b = 1%:M) /\
  (forall a b : Pose2Q.pose2,
     Pose2Q.AdjointMap (T_compose a b) =
     Pose2Q.AdjointMap a *m Pose2Q.AdjointMap b) /\
  compose Pose2QInputs.A_unit (compose Pose2QInputs.r_turn Pose2QInputs.B_shift) =
  compose (compose Pose2QInputs.A_unit Pose2QInputs.r_turn) Pose2QInputs.B_shift.
Proof.
  have HAd := Pose2QAdjoint.AdjointMap_compose.
  do 2 (split; first by []).
  split; first exact: HAd.
  exact: (compose_associative (R := int) (T := Pose2Q.pose2) (Ad := Pose2Q.AdjointMap)
            (fun _ _ => erefl) (fun _ _ => erefl) HAd
            Pose2QInputs.A_unit Pose2QInputs.r_turn Pose2QInputs.B_shift).
Defined.

(** X9.  [inverse] is an involution, covariance included. *)
Theorem inverse_involutive (R : comRingType) (T : Type) `{LieGroupLaws R T}
    (Ad : T -> 'M[R]_(getDim T))
    (HJ : forall a, T_inverse_H a = - Ad a)
    (HAd : forall a b, Ad (T_compose a b) = Ad a *m Ad b)
    (HAd1 : Ad T_identity = 1%:M) (A : PoseWithCovariance R T) :
  inverse (inverse A) = A.
Proof.
  case: A => a C; rewrite /inverse /= !HJ !raddfN /=.
  rewrite !(mulNmx, mulmxN, opprK) inverse_inverse.
  rewrite !mulmxA -HAd compose_inv_l HAd1 mul1mx.
  by rewrite -mulmxA -trmx_mul -HAd compose_inv_l HAd1 trmx1 mulmx1.
Qed.

Lemma inverse_involutive_witness :
  (forall a : Pose2Q.pose2, T_inverse_H a = - Pose2Q.AdjointMap a) /\
  (forall a b : Pose2Q.pose2,
     Pose2Q.AdjointMap (T_compose a b) =
     Pose2Q.AdjointMap a *m Pose2Q.AdjointMap b) /\
  Pose2Q.AdjointMap T_identity = 1%:M /\
  inverse (inverse Pose2QInputs.r_turn) = Pose2QInputs.r_turn.
Proof.
  have HAd := Pose2QAdjoint.AdjointMap_compose.
  have HAd1 := Pose2QAdjoint.AdjointMap_identity.
  split; first by [].
  split; first exact: HAd.
  split; first exact: HAd1.
  exact: (inverse_involutive (R := int) (T := Pose2Q.pose2) (Ad := Pose2Q.AdjointMap)
            (fun _ => erefl) HAd HAd1 Pose2QInputs.r_turn).
Defined.

(** X10.  [between(A, A)] is the default pose (identity, zero covariance)
    whichever branch the Cholesky test selects. *)
Theorem between_self_default (R : ringType) (T : Type) `{LieGroupLaws R T}
    (llt_ok : 'M[R]_(getDim T) -> bool)
    (HJ : forall a, T_between_H1 a a = - 1%:M) (A : PoseWithCovariance R T) :
  between llt_ok A A = pwc_default (R := R) (T := T).
Proof.
  rewrite /between /pwc_default !HJ raddfN /= trmx1 mulNmx mul1mx mulmxN mulmx1 opprK subrr.
  by rewrite between_def compose_inv_l; case: (llt_ok _).
Qed.

Lemma between_self_default_witness :
  (forall a : Pose2Q.pose2, T_between_H1 a a = - 1%:M) /\
  between (@llt_succeeds _ _) Pose2QInputs.r_turn Pose2QInputs.r_turn =
  pwc_default (R := int) (T := Pose2Q.pose2).
Proof.
  split; first exact: Pose2QAdjoint.between_H1_self.
  exact: (between_self_default (@llt_succeeds _ _) Pose2QAdjoint.between_H1_self).
Defined.

(** ** [PoseWithDistance] *)

(** X11.  The distance [between_d] computes is symmetric in its operands,
    non-negative, and zero between an object and itself. *)
Theorem between_d_distance (R : numDomainType) (T : Type)
    `{PoseDims T} `{!LieGroup R T} (A B : PoseWithDistance R T) :
  distance (between_d A B) = distance (between_d B A) /\
  0 <= distance (between_d A B) /\
  distance (between_d A A) = 0.
Proof. by rewrite /= distrC normr_ge0 subrr normr0. Qed.

(** X12.  Relating [A] to [A.compose(B)] with [between] gives back [B]'s
    pose, with distance the absolute value of [B]'s translation norm
    (whatever [B.distance] is). *)
Theorem between_d_compose_d (R : numDomainType) (T : Type) `{LieGroupLaws R T}
    `{!PoseMetric R T} (A B : PoseWithDistance R T) :
  between_d A (compose_d A B) =
  {| dpose := dpose B; distance := `|T_translation_norm (dpose B)| |}.
Proof.
  rewrite /between_d /compose_d /= between_def compose_assoc compose_inv_l compose_id_l.
  by rewrite addrAC subrr add0r.
Qed.

Lemma between_d_compose_d_witness :
  between_d Line1.d_start (compose_d Line1.d_start Line1.d_step) =
  {| dpose := Line1.Line (-3); distance := 3 |}.
Proof. exact: (between_d_compose_d Line1.d_start Line1.d_step). Defined.

(** X13.  [inverse_d] is an involution. *)
Theorem inverse_d_involutive (R : numDomainType) (T : Type) `{LieGroupLaws R T}
    (A : PoseWithDistance R T) :
  inverse_d (inverse_d A) = A.
Proof. by case: A => a d; rewrite /inverse_d /= inverse_inverse. Qed.

Lemma inverse_d_involutive_witness :
  inverse_d (inverse_d Line1.d_step) = Line1.d_step.
Proof. exact: inverse_d_involutive. Defined.

(** X14.  When translation norms are non-negative, the default and
    prior-factor constructors and every operation of [PoseWithDistance]
    yield a non-negative distance from non-negative inputs, and [compose]
    never decreases the distance. *)
Theorem distance_nonneg_invariant (R : numDomainType) (T : Type)
    `{PoseDims T} `{!LieGroup R T} `{!PoseMetric R T}
    (Hn : forall t : T, 0 <= T_translation_norm t)
    (pf : PriorFactor T) (A B : PoseWithDistance R T) :
  0 <= distance A ->
  0 <= distance (pwd_default (R := R) (T := T)) /\
  0 <= distance (pwd_of_prior R pf) /\
  distance A <= distance (compose_d A B) /\
  0 <= distance (compose_d A B) /\
  0 <= distance (inverse_d A) /\
  0 <= distance (between_d A B).
Proof.
  move=> HA; split; first exact: Order.POrderTheory.lexx.
  split; first exact: Order.POrderTheory.lexx.
  split; first by rewrite /= lerDl.
  split; first by rewrite /= addr_ge0.
  split; first exact: HA.
  exact: normr_ge0.
Qed.

Lemma distance_nonneg_invariant_witness :
  (forall t : Line1.line, 0 <= T_translation_norm t) /\
  0 <= distance Line1.d_start /\
  0 <= distance (compose_d Line1.d_start Line1.d_step).
Proof.
  have Hn : forall t : Line1.line, 0 <= T_translation_norm t.
    by move=> t; exact: normr_ge0.
  have HA : 0 <= distance Line1.d_start by [].
  do 2 (split; first by []).
  have Hinv := distance_nonneg_invariant Hn {| prior := Line1.Line 0 |}
                 Line1.d_step HA.
  by case: Hinv => _ [_ [_ [? _]]].
Defined.
